(** * Verification of the in-process and Redis adapters of go-cache

    Shallow embedding of [memory/methods.go], [memory/memory.go],
    [redis/methods.go] and [redis/redis.go].  Time is modelled as Go's
    [time.Time] reduced to one integer clock in nanoseconds (the zero
    [time.Time] is the clock value 0, i.e. the start of year 1), a
    [time.Duration] as a signed 64-bit integer with its wrap-around written
    out, a [[]byte] as a list of bytes and a Go [map[string]T] as a
    [gmap string T]. *)

From Stdlib Require Import ZArith Lia.
From stdpp Require Import base gmap strings list.

Open Scope Z_scope.

(** ** Go's 64-bit durations *)
Module Dur.

Definition min_int64 : Z := - 2 ^ 63.
Definition max_int64 : Z := 2 ^ 63 - 1.

(** Two's complement wrap-around of an [int64] result. *)
Definition wrap (z : Z) : Z := (z + 2 ^ 63) mod 2 ^ 64 - 2 ^ 63.

(** [t.Sub(u)] saturates to [minDuration]/[maxDuration] on overflow. *)
Definition sub (t u : Z) : Z :=
  let d := t - u in
  if d >? max_int64 then max_int64
  else if d <? min_int64 then min_int64
  else d.

(** [time.Since(t)] is [time.Now().Sub(t)]. *)
Definition since (now t : Z) : Z := sub now t.

Definition is_int64 (z : Z) : Prop := min_int64 <= z <= max_int64.

End Dur.

(** ** The in-process store *)
Module Memory.

Definition bytes := list Byte.byte.

(** [MemCacheValue]: [saved time.Time; value []byte].  The Go zero value
    [MemCacheValue{}] has the zero time and the [nil] slice. *)
Record MemCacheValue := mkValue { saved : Z; value : bytes }.

Definition zero_value : MemCacheValue := mkValue 0 [].

(** [MemCache]: the mutex is not modelled (every method runs under it). *)
Record MemCache := mkCache { window : Z; cache : gmap string MemCacheValue }.

(** [fmt.Errorf("unable to retrieve value from cache")]. *)
Inductive error := Errorf (msg : string).

Definition not_found : error := Errorf "unable to retrieve value from cache".

Definition defaultWindow : Z := 60 * 1000000000.

(** [type Option func( *MemCache)]: an option updates the cache being built. *)
Definition Option := MemCache -> MemCache.

(** [New(opts...)]: an empty map and [defaultWindow], then every option
    applied in order. *)
Definition New (opts : list Option) : MemCache :=
  fold_left (fun nache opt => opt nache) opts (mkCache defaultWindow ∅).

(** [Window(t)]: sets [mc.window = t]. *)
Definition Window (t : Z) : Option := fun mc => mkCache t mc.(cache).

(** [(time.Since(v.saved) - c.window) * -1] in [int64] arithmetic. *)
Definition age (now : Z) (c : MemCache) (v : MemCacheValue) : Z :=
  Dur.wrap (Dur.wrap (Dur.since now v.(saved) - c.(window)) * -1).

(** [IsWarm]: [val, ok := c.cache[key]] yields the zero value when the key
    is missing; the result is [ok && age > 0]. *)
Definition IsWarm (now : Z) (c : MemCache) (key : string) : bool :=
  let ok := bool_decide (is_Some (c.(cache) !! key)) in
  let val := default zero_value (c.(cache) !! key) in
  ok && (0 <? age now c val).

(** [Put]: copy every entry whose key differs from [key] into a fresh map,
    insert the new entry, replace the map.  Returns [nil]. *)
Definition Put (now : Z) (c : MemCache) (key : string) (v : bytes)
    : MemCache * option error :=
  let fresh := filter (fun kv : string * MemCacheValue => kv.1 ≠ key) c.(cache) in
  let nVal := mkValue now v in
  (mkCache c.(window) (<[key := nVal]> fresh), None).

(** [Get]: a plain lookup; a missing key fails. *)
Definition Get (c : MemCache) (key : string) : bytes + error :=
  match c.(cache) !! key with
  | None => inr not_found
  | Some e => inl e.(value)
  end.

(** [Delete]: a missing key fails; otherwise [c.cache[key] = MemCacheValue{}]. *)
Definition Delete (c : MemCache) (key : string) : MemCache * option error :=
  match c.(cache) !! key with
  | None => (c, Some not_found)
  | Some _ => (mkCache c.(window) (<[key := zero_value]> c.(cache)), None)
  end.

(** [Flush]: replace the map with an empty one. *)
Definition Flush (c : MemCache) : MemCache * option error :=
  (mkCache c.(window) ∅, None).

(** [FlushStale]: the loop deletes every [k] whose [age < 0]; deleting the
    current key during a Go [range] is allowed, so the net effect is the
    filter keeping exactly the entries with [age >= 0]. *)
Definition FlushStale (now : Z) (c : MemCache) : MemCache * option error :=
  (mkCache c.(window)
     (filter (fun kv : string * MemCacheValue => ~ (age now c kv.2 < 0)) c.(cache)),
   None).

End Memory.

(** ** The janitor of the in-process store *)
Module Janitor.
Import Memory.

(** [cleaner{Interval; stop}]; the unbuffered [stop] channel carries no
    data of its own, its receive is one of the [select] cases below. *)
Record cleaner := mkCleaner { Interval : Z }.

(** [initCleaner]: [Interval: c.window]. *)
Definition initCleaner (c : MemCache) : cleaner := mkCleaner c.(window).

(** The case chosen by each iteration of the [select] in [cleanup]. *)
Inductive select_case := TickerC | StopC.

(** State after the events seen so far: the goroutine is still in the
    [for] loop with its ticker running, or has returned after
    [ticker.Stop()], or the process has died with a fatal error or an
    unrecovered panic (the in-memory cache is lost with it). *)
Inductive status := Looping | Returned | Crashed (msg : string).

(** [cleanup]: the ticker created with [time.NewTicker(j.Interval)] at
    [start] delivers its [k]-th tick at [start + k * Interval]; on a tick
    [c.FlushStale()] is called and its result discarded; on a stop signal
    the ticker is stopped and the goroutine returns. *)
Fixpoint cleanup_loop (j : cleaner) (start : Z) (k : nat)
    (evs : list select_case) (c : MemCache) : MemCache * status :=
  match evs with
  | [] => (c, Looping)
  | TickerC :: evs' =>
      let now := start + Z.of_nat (S k) * j.(Interval) in
      cleanup_loop j start (S k) evs' (FlushStale now c).1
  | StopC :: _ => (c, Returned)
  end.

(** [time.NewTicker(d)] panics when [d <= 0]. *)
Definition NewTicker_panic (d : Z) : option string :=
  if d <=? 0 then Some "non-positive interval for NewTicker" else None.

(** [cleanup]: [ticker := time.NewTicker(j.Interval)], then the loop; a
    panic of [NewTicker] is not recovered and ends the process. *)
Definition cleanup (j : cleaner) (start : Z) (evs : list select_case)
    (c : MemCache) : MemCache * status :=
  match NewTicker_panic j.(Interval) with
  | Some msg => (c, Crashed msg)
  | None => cleanup_loop j start 0 evs c
  end.

(** Where the pointer given to [runtime.SetFinalizer] points: the start of
    a heap object (what [New] returns, [&MemCache{...}]), the inside of a
    heap object (a [MemCache] embedded in a larger struct), or a global
    variable. *)
Inductive obj_loc := HeapStart | HeapInterior | GlobalData.

(** A Go function value, by the number of parameters of its type. *)
Record func_value := mkFunc { num_in : nat }.

(** The method value [j.stopCleaner] has type [func()]. *)
Definition stopCleaner (j : cleaner) : func_value := mkFunc 0.

(** The checks [runtime.SetFinalizer(obj, finalizer)] makes, in its order,
    for a [*MemCache] [obj] and a non-nil function [finalizer]: a pointer to
    global data is silently ignored; a pointer inside a heap object (whose
    type holds pointers) throws; otherwise a finalizer that does not take
    exactly one argument throws.  A throw is a fatal error. *)
Definition SetFinalizer (obj : obj_loc) (finalizer : func_value) : option string :=
  match obj with
  | GlobalData => None
  | HeapInterior =>
      Some "runtime.SetFinalizer: pointer not at beginning of allocated block"
  | HeapStart =>
      if Nat.eqb finalizer.(num_in) 1 then None
      else Some "runtime.SetFinalizer: cannot pass *memory.MemCache to finalizer func()"
  end.

(** [RunCleaner]: [j := c.initCleaner(); j.run(c)] starts [j.cleanup(c)]
    in a goroutine from [start], then [runtime.SetFinalizer(c,
    j.stopCleaner)].  A fatal error of [SetFinalizer] ends the process
    whatever the goroutine did (should the goroutine also panic, which of
    the two ends the process first is up to the scheduler; the finalizer's
    error is the one reported here). *)
Definition RunCleaner (loc : obj_loc) (c : MemCache) (start : Z)
    (evs : list select_case) : MemCache * status :=
  let j := initCleaner c in
  let goroutine := cleanup j start evs c in
  match SetFinalizer loc (stopCleaner j) with
  | Some msg => (c, Crashed msg)
  | None => goroutine
  end.

(** The cache after [n] sweeps at the tick instants [start + i * w]. *)
Fixpoint sweeps (w start : Z) (k n : nat) (c : MemCache) : MemCache :=
  match n with
  | O => c
  | S n' => sweeps w start (S k) n' (FlushStale (start + Z.of_nat (S k) * w) c).1
  end.

End Janitor.

(** ** The Redis store *)
Module Redis.

Definition bytes := list Byte.byte.

(** Errors of the go-redis client: [redis.Nil] (a nil reply) or a
    transport error. *)
Inductive rerror := Nil | Transport (msg : string).

(** A key held by the Redis server: its value and its remaining time to
    live in milliseconds, [None] when no expiry is set. *)
Record rentry := mkEntry { rval : bytes; rttl_ms : option Z }.

Inductive command :=
  | CExists (k : string) | CTTL (k : string) | CDel (k : string) | CScan
  | CSet (k : string) | CGet (k : string).

(** The server state reached through [c *redis.Client], with the
    transport errors each command would meet. *)
Record client := mkClient {
  store : gmap string rentry;
  fault : command -> option string
}.

Record RedisCache := mkRedis { c : client; window : Z }.

(** [EXISTS key]: an integer reply, the number of keys that exist. *)
Definition exists_cmd (cl : client) (key : string) : Z * option rerror :=
  match cl.(fault) (CExists key) with
  | Some e => (0, Some (Transport e))
  | None => (match cl.(store) !! key with Some _ => 1 | None => 0 end, None)
  end.

(** [TTL key] as a [time.Duration] of go-redis: the replies -2 (no key) and
    -1 (no expiry) are kept as they are, a number of seconds [n] becomes
    [n * time.Second]; Redis rounds the remaining milliseconds to seconds. *)
Definition ttl_cmd (cl : client) (key : string) : Z + rerror :=
  match cl.(fault) (CTTL key) with
  | Some e => inr (Transport e)
  | None =>
      match cl.(store) !! key with
      | None => inl (-2)
      | Some e =>
          match e.(rttl_ms) with
          | None => inl (-1)
          | Some ms => inl ((ms + 500) / 1000 * 1000000000)
          end
      end
  end.

(** [DEL key]. *)
Definition del_cmd (cl : client) (key : string) : client + rerror :=
  match cl.(fault) (CDel key) with
  | Some e => inr (Transport e)
  | None => inl (mkClient (delete key cl.(store)) cl.(fault))
  end.

(** [SCAN 0 "" 0] through its iterator: the keys it yields and the error
    [iter.Err()] reports afterwards. *)
Definition scan_cmd (cl : client) : list string * option rerror :=
  match cl.(fault) CScan with
  | Some e => ([], Some (Transport e))
  | None => (map fst (map_to_list cl.(store)), None)
  end.

(** [IsWarm]: [_, err := Exists(key).Result(); return err != redis.Nil]. *)
Definition IsWarm (rc : RedisCache) (key : string) : bool :=
  match (exists_cmd rc.(c) key).2 with
  | Some Nil => false
  | _ => true
  end.

(** The [for iter.Next(ctx)] loop of [FlushStale]. *)
Fixpoint flush_stale_loop (cl : client) (keys : list string)
    : client * option rerror :=
  match keys with
  | [] => (cl, None)
  | key :: ks =>
      match ttl_cmd cl key with
      | inr err => (cl, Some err)
      | inl d =>
          if d =? -1 then
            match del_cmd cl key with
            | inr err => (cl, Some err)
            | inl cl' => flush_stale_loop cl' ks
            end
          else flush_stale_loop cl ks
      end
  end.

(** [FlushStale]. *)
Definition FlushStale (rc : RedisCache) : RedisCache * option rerror :=
  let '(keys, iter_err) := scan_cmd rc.(c) in
  let '(cl', err) := flush_stale_loop rc.(c) keys in
  match err with
  | Some e => (mkRedis cl' rc.(window), Some e)
  | None => (mkRedis cl' rc.(window), iter_err)
  end.

(** [redis.KeepTTL]. *)
Definition KeepTTL : Z := -1.

(** The expiry the server gives a key written by go-redis's
    [Set(ctx, key, value, expiration)]: a positive expiration is sent as
    [PX ms] when it is below a second or not a whole number of seconds
    ([usePrecise]; below a millisecond [formatMs] sends 1), as [EX s]
    otherwise; [KeepTTL] sends [KEEPTTL], which keeps the old expiry; any
    other value sends no option, and a plain [SET] clears the expiry. *)
Definition set_ttl (expiration : Z) (old : option rentry) : option Z :=
  if 0 <? expiration then
    if (expiration <? 1000000000) || negb (expiration mod 1000000000 =? 0)
    then Some (if expiration <? 1000000 then 1 else expiration / 1000000)
    else Some (expiration / 1000000000 * 1000)
  else if expiration =? KeepTTL then
    match old with Some e => e.(rttl_ms) | None => None end
  else None.

(** [SET key value ...]. *)
Definition set_cmd (cl : client) (key : string) (value : bytes)
    (expiration : Z) : client + rerror :=
  match cl.(fault) (CSet key) with
  | Some e => inr (Transport e)
  | None =>
      inl (mkClient
             (<[key := mkEntry value (set_ttl expiration (cl.(store) !! key))]>
                cl.(store))
             cl.(fault))
  end.

(** [GET key]: a missing key is a nil reply, reported as [redis.Nil]. *)
Definition get_cmd (cl : client) (key : string) : bytes + rerror :=
  match cl.(fault) (CGet key) with
  | Some e => inr (Transport e)
  | None =>
      match cl.(store) !! key with
      | None => inr Nil
      | Some e => inl e.(rval)
      end
  end.

(** [Put]: [Set(ctx, key, value, c.window)]. *)
Definition Put (rc : RedisCache) (key : string) (value : bytes)
    : RedisCache * option rerror :=
  match set_cmd rc.(c) key value rc.(window) with
  | inr err => (rc, Some err)
  | inl cl' => (mkRedis cl' rc.(window), None)
  end.

(** [Get]: [val, err := Get(ctx, key).Result()]; on error [nil, err],
    otherwise [[]byte(val)]. *)
Definition Get (rc : RedisCache) (key : string) : bytes + rerror :=
  get_cmd rc.(c) key.

(** [Delete]: [Del(ctx, key).Err()]. *)
Definition Delete (rc : RedisCache) (key : string) : RedisCache * option rerror :=
  match del_cmd rc.(c) key with
  | inr err => (rc, Some err)
  | inl cl' => (mkRedis cl' rc.(window), None)
  end.

(** The [for iter.Next(ctx)] loop of [Flush]. *)
Fixpoint flush_loop (cl : client) (keys : list string) : client * option rerror :=
  match keys with
  | [] => (cl, None)
  | key :: ks =>
      match del_cmd cl key with
      | inr err => (cl, Some err)
      | inl cl' => flush_loop cl' ks
      end
  end.

(** [Flush]. *)
Definition Flush (rc : RedisCache) : RedisCache * option rerror :=
  let '(keys, iter_err) := scan_cmd rc.(c) in
  let '(cl', err) := flush_loop rc.(c) keys in
  match err with
  | Some e => (mkRedis cl' rc.(window), Some e)
  | None => (mkRedis cl' rc.(window), iter_err)
  end.

(** The fields of the [redis.Options] that [New] passes to
    [redis.NewClient]; the [OnConnect] logging hook and the defaults
    [NewClient] fills into the other fields are not modelled. *)
Record Options := mkOptions {
  Addr : string; Username : string; Password : string;
  ReadTimeout : Z; WriteTimeout : Z
}.

(** The [RedisCache] under construction: its client and its window. *)
Record Config := mkConfig { client_opts : Options; cfg_window : Z }.

(** [type Option func( *RedisCache)]. *)
Definition Option := Config -> Config.

(** [New(address, username, password, opts...)]: an empty address becomes
    ["localhost:6379"], both timeouts are 10 seconds, the window is left at
    its zero value, then every option is applied in order. *)
Definition New (address username password : string) (opts : list Option) : Config :=
  let address := if String.eqb address "" then "localhost:6379"%string else address in
  let rdc := mkOptions address username password (10 * 1000000000) (10 * 1000000000) in
  fold_left (fun r opt => opt r) opts (mkConfig rdc 0).

(** [Window(t)]: sets [rc.window = t]. *)
Definition Window (t : Z) : Option :=
  fun rc => mkConfig rc.(client_opts) t.

End Redis.

(** ** Concrete caches used by the witnesses and counterexamples *)
Module Samples.
Import Memory.

(** A window of 100ns and key ["a"] saved at time 0 with payload ["A"]. *)
Definition cache_a : MemCache :=
  mkCache 100 (<["a" := mkValue 0 [Byte.x41]]> ∅).

(** An empty Redis server whose commands all succeed. *)
Definition redis_empty : Redis.RedisCache :=
  Redis.mkRedis (Redis.mkClient ∅ (fun _ => None)) 100.

(** A Redis server holding ["p"] (no expiry) and ["q"] (5s left). *)
Definition redis_pq : Redis.RedisCache :=
  Redis.mkRedis
    (Redis.mkClient
       (<["p" := Redis.mkEntry [Byte.x41] None]>
          (<["q" := Redis.mkEntry [Byte.x42] (Some 5000)]> ∅))
       (fun _ => None))
    100.

End Samples.

(** ** Properties of the in-process store *)
Module MemoryFacts.
Import Memory Samples.

Lemma Put_lookup_ne now c key key' v :
  key' ≠ key ->
  (Put now c key v).1.(cache) !! key' = c.(cache) !! key'.
Proof.
  intros Hne. simpl. rewrite lookup_insert_ne by congruence.
  rewrite map_lookup_filter. destruct (c.(cache) !! key') as [e|]; simpl; [|done].
  rewrite option_guard_True; [done|]. simpl. exact Hne.
Qed.

Lemma Put_lookup_eq now c key v :
  (Put now c key v).1.(cache) !! key = Some (mkValue now v).
Proof. simpl. apply lookup_insert_eq. Qed.

(** C1 (counterexample): a stale entry (age 150 >= window 100) is still
    returned by [Get]. *)
Lemma Get_stale_not_rejected :
  ~ (forall now c key e,
       c.(cache) !! key = Some e ->
       c.(window) <= Dur.since now e.(saved) ->
       Get c key = inr not_found).
Proof.
  intros H.
  specialize (H 150 cache_a "a" (mkValue 0 [Byte.x41]) eq_refl).
  assert (Hle : cache_a.(window) <= Dur.since 150 0) by (vm_compute; discriminate).
  specialize (H Hle). vm_compute in H. discriminate.
Qed.

(** C1 (amended): [Get] returns the payload of every present entry,
    whatever its age, and fails with the not-found error only when the
    key is absent. *)
Theorem Get_ignores_age now c key :
  (forall e, c.(cache) !! key = Some e ->
     Get c key = inl e.(value) /\
     (c.(window) <= Dur.since now e.(saved) -> Get c key = inl e.(value))) /\
  (c.(cache) !! key = None -> Get c key = inr not_found).
Proof.
  unfold Get. split.
  - intros e He. rewrite He. auto.
  - intros He. rewrite He. reflexivity.
Qed.

(** C2 (code defect): at age = window, [IsWarm] reports the key cold but
    [FlushStale] at the same instant keeps it. *)
Theorem IsWarm_FlushStale_disagree_at_boundary :
  Dur.since 100 0 = cache_a.(window) /\
  IsWarm 100 cache_a "a" = false /\
  (FlushStale 100 cache_a).1.(cache) !! "a" = Some (mkValue 0 [Byte.x41]).
Proof. vm_compute. auto. Qed.

(** C3 (code defect): [Delete] of a present key succeeds but leaves the key
    in the map with the zero value, so [Get] then succeeds with a [nil]
    payload and a second [Delete] succeeds too. *)
Theorem Delete_leaves_key_present :
  (Delete cache_a "a").2 = None /\
  (Delete cache_a "a").1.(cache) !! "a" = Some zero_value /\
  Get (Delete cache_a "a").1 "a" = inl [] /\
  (Delete (Delete cache_a "a").1 "a").2 = None.
Proof. vm_compute. auto. Qed.

(** C4 (code defect, the one of C2): an entry whose age equals the window
    is kept by [FlushStale], while one a nanosecond older is removed. *)
Theorem FlushStale_keeps_age_equal_window :
  Dur.since 100 0 = cache_a.(window) /\
  (FlushStale 100 cache_a).1.(cache) !! "a" = Some (mkValue 0 [Byte.x41]) /\
  (FlushStale 101 cache_a).1.(cache) !! "a" = None.
Proof. vm_compute. auto. Qed.

(** C7: [Put(k, v)] then [Get(k)] returns [v] unchanged. *)
Theorem Put_Get_roundtrip now c key v :
  Get (Put now c key v).1 key = inl v.
Proof. unfold Get. rewrite Put_lookup_eq. reflexivity. Qed.

(** C8: [Put(k, v)] leaves the entry of every other key as it was. *)
Theorem Put_frame now c key key' v :
  key' ≠ key ->
  (Put now c key v).1.(cache) !! key' = c.(cache) !! key'.
Proof. apply Put_lookup_ne. Qed.

Lemma Put_frame_witness :
  ("b" : string) ≠ "a" /\
  (Put 7 cache_a "b" [Byte.x42]).1.(cache) !! "a" = cache_a.(cache) !! "a".
Proof.
  split; [discriminate|].
  apply (Put_frame 7 cache_a "b" "a" [Byte.x42]). discriminate.
Defined.

(** C10: [Put], [Flush] and [FlushStale] always return a [nil] error. *)
Theorem Put_Flush_FlushStale_nil_error now c key v :
  (Put now c key v).2 = None /\ (Flush c).2 = None /\ (FlushStale now c).2 = None.
Proof. repeat split. Qed.

End MemoryFacts.

(** ** Properties of the janitor *)
Module JanitorFacts.
Import Memory Janitor.

Lemma cleanup_loop_ticks_then_stop j start k n rest c :
  cleanup_loop j start k (repeat TickerC n ++ StopC :: rest) c =
  (sweeps j.(Interval) start k n c, Returned).
Proof.
  revert k c. induction n as [|n IH]; intros k c; simpl; [reflexivity|].
  apply IH.
Qed.

Lemma cleanup_loop_ticks j start k n c :
  cleanup_loop j start k (repeat TickerC n) c =
  (sweeps j.(Interval) start k n c, Looping).
Proof.
  revert k c. induction n as [|n IH]; intros k c; simpl; [reflexivity|].
  apply IH.
Qed.

(** C9 (code defect): [RunCleaner] passes the zero-argument method value
    [j.stopCleaner] to [runtime.SetFinalizer], which throws for the heap
    object [New] returns, so the process dies before the janitor sweeps
    anything; independently, the goroutine's [time.NewTicker] panics for a
    window [<= 0].  For a positive window the [cleanup] loop itself does
    what the claim says: interval = window, [FlushStale] on each tick with
    its error dropped, and return after stopping the ticker on the stop
    signal. *)
Theorem RunCleaner_aborts_on_finalizer c start evs :
  RunCleaner HeapStart c start evs =
    (c, Crashed "runtime.SetFinalizer: cannot pass *memory.MemCache to finalizer func()") /\
  (c.(window) <= 0 ->
     cleanup (initCleaner c) start evs c = (c, Crashed "non-positive interval for NewTicker")) /\
  (0 < c.(window) -> forall n rest,
     (initCleaner c).(Interval) = c.(window) /\
     cleanup (initCleaner c) start (repeat TickerC n ++ StopC :: rest) c =
       (sweeps c.(window) start 0 n c, Returned) /\
     cleanup (initCleaner c) start (repeat TickerC n) c =
       (sweeps c.(window) start 0 n c, Looping)).
Proof.
  split; [reflexivity|]. split.
  - intros Hw. unfold cleanup, NewTicker_panic. simpl.
    destruct (Z.leb_spec (window c) 0); [reflexivity|lia].
  - intros Hw n rest. unfold cleanup, NewTicker_panic. simpl.
    destruct (Z.leb_spec (window c) 0); [lia|].
    split; [reflexivity|]. split.
    + apply cleanup_loop_ticks_then_stop.
    + apply cleanup_loop_ticks.
Qed.

End JanitorFacts.

(** ** Properties of the Redis store *)
Module RedisFacts.
Import Redis Samples.

Lemma IsWarm_never_nil rc key : IsWarm rc key = true.
Proof.
  unfold IsWarm, exists_cmd. destruct (fault (c rc) (CExists key)); reflexivity.
Qed.

(** C5 (code defect): [EXISTS] answers with an integer and never with a
    nil reply, so [err != redis.Nil] holds whether the key exists, is
    absent, or the command fails: [IsWarm] is always [true], e.g. for a
    key absent from an empty server and for a key whose [EXISTS] meets a
    transport error. *)
Theorem IsWarm_true_when_absent_or_failing :
  (c redis_empty).(store) !! "a" = None /\
  exists_cmd (c redis_empty) "a" = (0, None) /\
  IsWarm redis_empty "a" = true /\
  IsWarm (mkRedis (mkClient ∅ (fun _ => Some "i/o timeout")) 100) "a" = true /\
  (forall rc key, IsWarm rc key = true).
Proof.
  split; [reflexivity|]. split; [reflexivity|]. split; [reflexivity|].
  split; [reflexivity|]. apply IsWarm_never_nil.
Qed.

Definition live (cl : client) : Prop :=
  forall k e ms, cl.(store) !! k = Some e -> e.(rttl_ms) = Some ms -> 0 < ms.

Lemma ttl_positive_not_sentinel ms : 0 < ms -> ((ms + 500) / 1000 * 1000000000 =? -1) = false.
Proof.
  intros Hms. apply Z.eqb_neq.
  assert (0 <= (ms + 500) / 1000) by (apply Z.div_pos; lia). lia.
Qed.

(** The loop never touches a key with an expiry, faults or not. *)
Lemma loop_keeps_expiring cl keys k e ms :
  live cl -> cl.(store) !! k = Some e -> e.(rttl_ms) = Some ms ->
  (flush_stale_loop cl keys).1.(store) !! k = Some e.
Proof.
  revert cl. induction keys as [|key ks IH]; intros cl Hlive Hk Httl; simpl; [done|].
  unfold ttl_cmd. destruct (fault cl (CTTL key)); simpl; [done|].
  destruct (store cl !! key) as [e'|] eqn:Hkey; [|by apply IH].
  destruct (rttl_ms e') as [ms'|] eqn:Httl'.
  - rewrite ttl_positive_not_sentinel by (eapply Hlive; eauto). by apply IH.
  - simpl. unfold del_cmd. destruct (fault cl (CDel key)); simpl; [done|].
    assert (key ≠ k) by (intros ->; congruence).
    apply IH; simpl.
    + intros k' e'' ms'' Hk'. simpl in Hk'. rewrite lookup_delete_Some in Hk'.
      destruct Hk' as [_ Hk']. eapply Hlive; eauto.
    + by rewrite lookup_delete_ne.
    + done.
Qed.

Definition no_faults (cl : client) : Prop := forall cmd, cl.(fault) cmd = None.

(** Without faults, the loop removes exactly the listed keys that exist
    without expiry. *)
Lemma loop_no_faults cl keys :
  live cl -> no_faults cl -> NoDup keys ->
  (flush_stale_loop cl keys).2 = None /\
  (flush_stale_loop cl keys).1.(fault) = cl.(fault) /\
  forall k, (flush_stale_loop cl keys).1.(store) !! k =
    if bool_decide (k ∈ keys)
    then filter (fun kv : string * rentry => kv.2.(rttl_ms) ≠ None) cl.(store) !! k
    else cl.(store) !! k.
Proof.
  revert cl. induction keys as [|key ks IH]; intros cl Hlive Hnf Hnd; simpl.
  { split; [done|]. split; [done|]. intros k. done. }
  apply NoDup_cons in Hnd as [Hkey_ks Hnd].
  unfold ttl_cmd. rewrite Hnf.
  destruct (store cl !! key) as [e'|] eqn:Hkey.
  2:{ simpl. destruct (IH cl Hlive Hnf Hnd) as (H1 & H2 & H3).
      split; [done|]. split; [done|]. intros k. rewrite H3.
      destruct (decide (k = key)) as [->|Hne].
      - rewrite bool_decide_false by done. rewrite bool_decide_true by set_solver.
        by rewrite map_lookup_filter, Hkey.
      - replace (bool_decide (k ∈ key :: ks)) with (bool_decide (k ∈ ks)); [done|].
        apply bool_decide_ext. set_solver. }
  destruct (rttl_ms e') as [ms'|] eqn:Httl'.
  - rewrite ttl_positive_not_sentinel by (eapply Hlive; eauto).
    destruct (IH cl Hlive Hnf Hnd) as (H1 & H2 & H3).
    split; [done|]. split; [done|]. intros k. rewrite H3.
    destruct (decide (k = key)) as [->|Hne].
    + rewrite bool_decide_false by done. rewrite bool_decide_true by set_solver.
      rewrite map_lookup_filter, Hkey. simpl. rewrite option_guard_True; [done|].
      simpl. by rewrite Httl'.
    + replace (bool_decide (k ∈ key :: ks)) with (bool_decide (k ∈ ks)); [done|].
        apply bool_decide_ext. set_solver.
  - simpl. unfold del_cmd. rewrite Hnf.
    set (cl' := mkClient (delete key (store cl)) (fault cl)).
    assert (Hlive' : live cl').
    { intros k' e'' ms'' Hk'. simpl in Hk'. rewrite lookup_delete_Some in Hk'.
      destruct Hk' as [_ Hk']. eapply Hlive; eauto. }
    destruct (IH cl' Hlive' Hnf Hnd) as (H1 & H2 & H3).
    split; [done|]. split; [done|]. intros k. rewrite H3. simpl.
    destruct (decide (k = key)) as [->|Hne].
    + rewrite bool_decide_false by done. rewrite bool_decide_true by set_solver.
      rewrite lookup_delete_eq, map_lookup_filter, Hkey. simpl.
      rewrite option_guard_False; [done|]. simpl. rewrite Httl'. tauto.
    + rewrite lookup_delete_ne by congruence.
      destruct (bool_decide (k ∈ ks)) eqn:Hb.
      * apply bool_decide_eq_true in Hb. rewrite bool_decide_true by set_solver.
        rewrite !map_lookup_filter, lookup_delete_ne by congruence. done.
      * apply bool_decide_eq_false in Hb. rewrite bool_decide_false by set_solver. done.
Qed.

Lemma FlushStale_store rc :
  (FlushStale rc).1.(c) =
  match fault rc.(c) CScan with
  | Some _ => rc.(c)
  | None => (flush_stale_loop rc.(c) (map fst (map_to_list rc.(c).(store)))).1
  end.
Proof.
  unfold FlushStale, scan_cmd. destruct (fault (c rc) CScan); simpl; [done|].
  destruct (flush_stale_loop _ _) as [cl' [e|]]; reflexivity.
Qed.

Lemma ttl_sentinel_iff cl k e :
  live cl -> no_faults cl -> cl.(store) !! k = Some e ->
  (ttl_cmd cl k = inl (-1) <-> e.(rttl_ms) = None).
Proof.
  intros Hlive Hnf Hk. unfold ttl_cmd. rewrite Hnf, Hk.
  destruct (rttl_ms e) as [ms|] eqn:Httl; [|done].
  split; [|done]. intros Heq. injection Heq as Heq.
  pose proof (ttl_positive_not_sentinel ms ltac:(eapply Hlive; eauto)) as Hne.
  apply Z.eqb_neq in Hne. contradiction.
Qed.

(** C6: [FlushStale] walks the keys yielded by the scan and deletes exactly
    those whose [TTL] reply is the no-expiry sentinel -1; a key with a
    remaining time to live is never deleted (faults or not); the configured
    window plays no part in the result. *)
Theorem FlushStale_deletes_no_expiry_keys rc :
  live rc.(c) ->
  (no_faults rc.(c) ->
     (forall k e, rc.(c).(store) !! k = Some e ->
        (ttl_cmd rc.(c) k = inl (-1) <-> e.(rttl_ms) = None)) /\
     (FlushStale rc).2 = None /\
     (FlushStale rc).1.(c).(store) =
       filter (fun kv : string * rentry => kv.2.(rttl_ms) ≠ None) rc.(c).(store)) /\
  (forall k e ms, rc.(c).(store) !! k = Some e -> e.(rttl_ms) = Some ms ->
     (FlushStale rc).1.(c).(store) !! k = Some e) /\
  (forall w, (FlushStale (mkRedis rc.(c) w)).1.(c) = (FlushStale rc).1.(c)).
Proof.
  intros Hlive. split; [|split].
  - intros Hnf. split; [intros k e; by apply ttl_sentinel_iff|].
    assert (Hnd : NoDup (map fst (map_to_list (store (c rc))))).
    { apply NoDup_fst_map_to_list. }
    destruct (loop_no_faults (c rc) _ Hlive Hnf Hnd) as (H1 & _ & H3).
    unfold FlushStale, scan_cmd. rewrite Hnf.
    destruct (flush_stale_loop _ _) as [cl' err] eqn:Hloop. simpl in *.
    subst err. split; [done|].
    apply map_eq. intros k. rewrite H3.
    case_bool_decide as Hin; [done|].
    rewrite map_lookup_filter.
    destruct (store (c rc) !! k) as [e|] eqn:Hk; [|done].
    exfalso. apply Hin. apply list_elem_of_In, in_map_iff. exists (k, e).
    split; [done|]. apply list_elem_of_In. by apply elem_of_map_to_list.
  - intros k e ms Hk Httl. rewrite FlushStale_store.
    destruct (fault (c rc) CScan); [done|]. by eapply loop_keeps_expiring.
  - intros w. rewrite !FlushStale_store. reflexivity.
Qed.

Lemma FlushStale_deletes_no_expiry_keys_witness :
  live (c redis_pq) /\
  (FlushStale redis_pq).1.(c).(store) !! "p" = None /\
  (FlushStale redis_pq).1.(c).(store) !! "q" = Some (mkEntry [Byte.x42] (Some 5000)).
Proof.
  assert (Hlive : live (c redis_pq)).
  { intros k e ms Hk Httl. simpl in Hk. rewrite !lookup_insert in Hk.
    repeat case_decide; simplify_eq/=; lia. }
  destruct (FlushStale_deletes_no_expiry_keys redis_pq Hlive) as [Hnf [Hkeep _]].
  destruct (Hnf (fun _ => eq_refl)) as (_ & _ & Hst).
  split; [exact Hlive|]. split.
  - rewrite Hst. vm_compute. reflexivity.
  - apply (Hkeep "q" _ 5000); reflexivity.
Defined.

End RedisFacts.

(** ** Further properties of the in-process store *)
Module MemoryExtra.
Import Memory.

Lemma wrap_small z : Dur.is_int64 z -> Dur.wrap z = z.
Proof.
  unfold Dur.is_int64, Dur.wrap, Dur.min_int64, Dur.max_int64. intros H.
  rewrite Z.mod_small; lia.
Qed.

(** Without overflow the [age] of an entry saved at or before [now] is
    [window - since], where [since] is the elapsed time saturated at
    [maxDuration]. *)
Lemma age_sat now c v :
  v.(saved) <= now -> 0 <= c.(window) <= Dur.max_int64 ->
  age now c v = c.(window) - Z.min (now - v.(saved)) Dur.max_int64.
Proof.
  intros Hs Hw. unfold age, Dur.since, Dur.sub.
  assert (Hsub : (if now - saved v >? Dur.max_int64 then Dur.max_int64
                  else if now - saved v <? Dur.min_int64 then Dur.min_int64
                  else now - saved v) = Z.min (now - saved v) Dur.max_int64).
  { unfold Dur.min_int64, Dur.max_int64 in *.
    destruct (Z.gtb_spec (now - saved v) (2 ^ 63 - 1)); [lia|].
    destruct (Z.ltb_spec (now - saved v) (- 2 ^ 63)); lia. }
  rewrite Hsub.
  unfold Dur.max_int64 in *.
  rewrite (wrap_small (Z.min _ _ - window c)).
  2:{ unfold Dur.is_int64, Dur.min_int64, Dur.max_int64. lia. }
  rewrite wrap_small; [lia|].
  unfold Dur.is_int64, Dur.min_int64, Dur.max_int64. lia.
Qed.

Lemma IsWarm_iff_fresh now c key e :
  c.(cache) !! key = Some e -> e.(saved) <= now -> 0 <= c.(window) <= Dur.max_int64 ->
  (IsWarm now c key = true <-> now - e.(saved) < c.(window)).
Proof.
  intros Hk Hs Hw. unfold IsWarm. rewrite Hk. simpl.
  rewrite (age_sat now c e Hs Hw).
  unfold Dur.max_int64 in *. rewrite Z.ltb_lt. lia.
Qed.

Lemma IsWarm_absent now c key : c.(cache) !! key = None -> IsWarm now c key = false.
Proof. intros Hk. unfold IsWarm. by rewrite Hk. Qed.

Lemma FlushStale_lookup now c key :
  (FlushStale now c).1.(cache) !! key =
  match c.(cache) !! key with
  | Some e => if decide (age now c e < 0) then None else Some e
  | None => None
  end.
Proof.
  simpl. rewrite map_lookup_filter.
  destruct (c.(cache) !! key) as [e|]; simpl; [|done].
  case_decide; [rewrite option_guard_False | rewrite option_guard_True]; simpl; auto.
Qed.

(** X: [IsWarm] of a present entry saved at or before [now] is exactly
    "elapsed time below the window"; an absent key is never warm. *)
Theorem IsWarm_fresh_iff now c key e :
  c.(cache) !! key = Some e -> e.(saved) <= now -> 0 <= c.(window) <= Dur.max_int64 ->
  (IsWarm now c key = true <-> now - e.(saved) < c.(window)).
Proof. apply IsWarm_iff_fresh. Qed.

Lemma IsWarm_fresh_iff_witness :
  IsWarm 50 Samples.cache_a "a" = true.
Proof.
  apply (IsWarm_fresh_iff 50 Samples.cache_a "a" (mkValue 0 [Byte.x41]));
    [reflexivity | simpl; lia | vm_compute; split; discriminate | simpl; lia].
Defined.

(** X: [FlushStale] at [now] removes a present entry (saved at most
    [maxDuration] before [now]) exactly when its elapsed time exceeds the
    window, keeps the others unchanged, and never creates a key. *)
Theorem FlushStale_removes_iff_older_than_window now c key e :
  c.(cache) !! key = Some e -> e.(saved) <= now <= e.(saved) + Dur.max_int64 ->
  0 <= c.(window) <= Dur.max_int64 ->
  (FlushStale now c).1.(cache) !! key =
    (if decide (now - e.(saved) <= c.(window)) then Some e else None) /\
  (forall k, c.(cache) !! k = None -> (FlushStale now c).1.(cache) !! k = None).
Proof.
  intros Hk Hs Hw. split.
  - rewrite FlushStale_lookup, Hk. rewrite (age_sat now c e) by lia.
    unfold Dur.max_int64 in *.
    do 2 case_decide; try reflexivity; lia.
  - intros k Hk'. rewrite FlushStale_lookup, Hk'. reflexivity.
Qed.

Lemma FlushStale_removes_iff_older_than_window_witness :
  (FlushStale 150 Samples.cache_a).1.(cache) !! "a" = None.
Proof.
  destruct (FlushStale_removes_iff_older_than_window 150 Samples.cache_a "a"
              (mkValue 0 [Byte.x41])) as [H _];
    [reflexivity | vm_compute; split; discriminate | vm_compute; split; discriminate |].
  rewrite H. reflexivity.
Defined.

(** X: a second [Put] on the same key wins: [Get] returns the last value. *)
Theorem Put_Put_Get_last_wins now1 now2 c key v1 v2 :
  Get (Put now2 (Put now1 c key v1).1 key v2).1 key = inl v2.
Proof. unfold Get. simpl. by rewrite lookup_insert_eq. Qed.

(** X: a key put at [now] is warm at every later instant [now'] strictly
    within the window, and cold from [now + window] on. *)
Theorem Put_IsWarm_within_window now now' c key v :
  now <= now' -> 0 <= c.(window) <= Dur.max_int64 ->
  (IsWarm now' (Put now c key v).1 key = true <-> now' < now + c.(window)).
Proof.
  intros Hn Hw.
  rewrite (IsWarm_iff_fresh now' (Put now c key v).1 key (mkValue now v));
    simpl; [lia | apply lookup_insert_eq | lia | lia].
Qed.

Lemma Put_IsWarm_within_window_witness :
  IsWarm 99 (Put 0 Samples.cache_a "b" [Byte.x42]).1 "b" = true /\
  IsWarm 100 (Put 0 Samples.cache_a "b" [Byte.x42]).1 "b" = false.
Proof.
  assert (Hw : 0 <= Samples.cache_a.(window) <= Dur.max_int64)
    by (vm_compute; split; discriminate).
  split.
  - apply (Put_IsWarm_within_window 0 99 Samples.cache_a "b" [Byte.x42]);
      [lia | exact Hw | simpl; lia].
  - destruct (IsWarm 100 _ "b") eqn:E; [|reflexivity].
    apply (Put_IsWarm_within_window 0 100 Samples.cache_a "b" [Byte.x42]) in E;
      [simpl in E; lia | lia | exact Hw].
Defined.

(** X: after [Flush] every key is absent ([Get] fails, [IsWarm] is false),
    the window is kept, and a second [Flush] changes nothing. *)
Theorem Flush_empties now c :
  (forall key, Get (Flush c).1 key = inr not_found /\
               IsWarm now (Flush c).1 key = false) /\
  (Flush c).1.(window) = c.(window) /\
  Flush (Flush c).1 = Flush c.
Proof. repeat split. Qed.

(** X: [Delete] of a present key succeeds and stores the zero value under
    the key; that value carries the zero time, so once the clock (counted
    from year 1) is past the window the deleted key is not warm, and a
    [FlushStale] past the window removes it; the other keys are untouched
    by [Delete]. *)
Theorem Delete_then_cold_and_swept now c key e :
  c.(cache) !! key = Some e -> 0 <= c.(window) < Dur.max_int64 -> c.(window) < now ->
  (Delete c key).2 = None /\
  (Delete c key).1.(cache) !! key = Some zero_value /\
  IsWarm now (Delete c key).1 key = false /\
  (FlushStale now (Delete c key).1).1.(cache) !! key = None /\
  (forall k, k ≠ key -> (Delete c key).1.(cache) !! k = c.(cache) !! k).
Proof.
  intros Hk Hw Hn. unfold Delete. rewrite Hk. cbn [fst snd].
  split; [done|]. split; [cbn [cache]; apply lookup_insert_eq|]. split; [|split].
  - destruct (IsWarm now _ key) eqn:E; [|done].
    apply (IsWarm_iff_fresh now _ key zero_value) in E; simpl in *;
      [lia | apply lookup_insert_eq | lia | lia].
  - rewrite FlushStale_lookup. cbn [cache].
    rewrite (lookup_insert_eq (M := gmap string) (cache c) key zero_value).
    rewrite (age_sat now _ zero_value) by (simpl; lia). simpl.
    unfold Dur.max_int64 in *. case_decide; [done|lia].
  - intros k Hne. cbn [cache]. by rewrite lookup_insert_ne by congruence.
Qed.

Lemma Delete_then_cold_and_swept_witness :
  IsWarm 200 (Delete Samples.cache_a "a").1 "a" = false.
Proof.
  apply (Delete_then_cold_and_swept 200 Samples.cache_a "a" (mkValue 0 [Byte.x41]));
    [reflexivity | vm_compute; split; [discriminate | reflexivity] | simpl; lia].
Defined.

(** X: [New] with only [Window] options builds an empty cache whose window
    is the last option's value, [defaultWindow] (60s) without options; in
    it no key is present or warm. *)
Theorem New_Window_empty ts now :
  (New (map Window ts)).(cache) = ∅ /\
  (New (map Window ts)).(window) = default defaultWindow (last ts) /\
  (forall key, Get (New (map Window ts)) key = inr not_found /\
               IsWarm now (New (map Window ts)) key = false).
Proof.
  unfold New.
  assert (H : forall w, fold_left (fun nache opt => opt nache) (map Window ts)
                          (mkCache w ∅) = mkCache (default w (last ts)) ∅).
  { induction ts as [|t ts IH]; intros w; simpl; [done|].
    unfold Window at 2. simpl. rewrite IH. destruct ts as [|z ts]; [reflexivity|].
    simpl. destruct (last (z :: ts)) eqn:E; [done|]. apply last_None in E. discriminate. }
  rewrite H. simpl. repeat split.
Qed.

(** X: [FlushStale] twice at the same instant is [FlushStale] once. *)
Theorem FlushStale_idempotent now c :
  FlushStale now (FlushStale now c).1 = FlushStale now c.
Proof.
  unfold FlushStale at 1 3. simpl. f_equal. f_equal.
  apply map_eq. intros k. rewrite !map_lookup_filter.
  destruct (c.(cache) !! k) as [e|]; simpl; [|done].
  case_guard as G; simpl; [|done]. by rewrite option_guard_True.
Qed.

End MemoryExtra.

(** ** Further properties of the janitor *)
Module JanitorExtra.
Import Memory Janitor.

Lemma cleanup_loop_subseteq j start k evs c :
  (cleanup_loop j start k evs c).1.(cache) ⊆ c.(cache) /\
  (cleanup_loop j start k evs c).1.(window) = c.(window).
Proof.
  revert k c. induction evs as [|[] evs IH]; intros k c; simpl; [done| |done].
  destruct (IH (S k) (FlushStale (start + Z.of_nat (S k) * Interval j) c).1) as [H1 H2].
  split; [|done]. etrans; [exact H1|]. apply map_filter_subseteq.
Qed.

(** X: when [RunCleaner] does not end the process (the cache is a global
    variable and the window is positive), then whatever ticks and stop
    signals the janitor sees, it only removes entries: it never adds a key,
    never changes a kept entry, and never changes the window. *)
Theorem RunCleaner_only_removes loc c start evs :
  (forall msg, (RunCleaner loc c start evs).2 ≠ Crashed msg) ->
  (RunCleaner loc c start evs).1.(cache) ⊆ c.(cache) /\
  (RunCleaner loc c start evs).1.(window) = c.(window).
Proof.
  intros Hok. unfold RunCleaner in *.
  destruct (SetFinalizer loc _) as [msg|]; [by destruct (Hok msg)|].
  unfold cleanup in *. destruct (NewTicker_panic _) as [msg|]; [by destruct (Hok msg)|].
  apply cleanup_loop_subseteq.
Qed.

Lemma RunCleaner_only_removes_witness :
  (RunCleaner GlobalData Samples.cache_a 0 [TickerC; TickerC; StopC]).1.(cache)
    ⊆ Samples.cache_a.(cache).
Proof.
  apply (RunCleaner_only_removes GlobalData Samples.cache_a 0 [TickerC; TickerC; StopC]).
  intros msg H. vm_compute in H. discriminate.
Defined.

End JanitorExtra.

(** ** Further properties of the Redis store *)
Module RedisExtra.
Import Redis RedisFacts.

Lemma FlushStale_no_faults rc :
  live rc.(c) -> no_faults rc.(c) ->
  (FlushStale rc).2 = None /\
  (FlushStale rc).1.(c).(store) =
    filter (fun kv : string * rentry => kv.2.(rttl_ms) ≠ None) rc.(c).(store).
Proof.
  intros Hlive Hnf.
  destruct (loop_no_faults (c rc) _ Hlive Hnf (NoDup_fst_map_to_list (store (c rc)))) as (H1 & _ & H3).
  unfold FlushStale, scan_cmd. rewrite Hnf.
  destruct (flush_stale_loop _ _) as [cl' err] eqn:Hloop. simpl in *.
  subst err. split; [done|].
  apply map_eq. intros k. rewrite H3.
  case_bool_decide as Hin; [done|].
  rewrite map_lookup_filter.
  destruct (store (c rc) !! k) as [e|] eqn:Hk; [|done].
  exfalso. apply Hin. apply list_elem_of_In, in_map_iff. exists (k, e).
  split; [done|]. apply list_elem_of_In. by apply elem_of_map_to_list.
Qed.

Lemma set_ttl_positive w old ms : 0 < w -> set_ttl w old = Some ms -> 0 < ms.
Proof.
  intros Hw. unfold set_ttl. apply Z.ltb_lt in Hw as Hw'. rewrite Hw'.
  destruct (_ || _) eqn:Hp; intros [= <-].
  - destruct (Z.ltb_spec w 1000000); [lia|].
    apply Z.div_str_pos. lia.
  - apply orb_false_iff in Hp as [Hlt _]. apply Z.ltb_ge in Hlt.
    assert (1 <= w / 1000000000) by (apply Z.div_le_lower_bound; lia). lia.
Qed.

Lemma set_ttl_nonpositive w old : w <= 0 -> w ≠ KeepTTL -> set_ttl w old = None.
Proof.
  intros Hw Hk. unfold set_ttl, KeepTTL in *.
  destruct (Z.ltb_spec 0 w); [lia|]. destruct (Z.eqb_spec w (-1)); [lia|done].
Qed.

Lemma Put_FlushStale_lookup rc key v :
  live rc.(c) -> no_faults rc.(c) -> rc.(window) ≠ KeepTTL ->
  (FlushStale (Put rc key v).1).1.(c).(store) !! key =
    if decide (0 < rc.(window))
    then Some (mkEntry v (set_ttl rc.(window) (rc.(c).(store) !! key)))
    else None.
Proof.
  intros Hlive Hnf Hkeep.
  unfold Put, set_cmd. rewrite Hnf. cbn [fst].
  set (cl' := mkClient _ _).
  assert (Hlive' : live cl').
  { intros k e ms Hk Httl. unfold cl' in Hk. cbn [store] in Hk.
    rewrite lookup_insert in Hk. case_decide; simplify_eq/=.
    - destruct (decide (0 < window rc)).
      + by eapply set_ttl_positive.
      + rewrite set_ttl_nonpositive in Httl by lia. discriminate.
    - by eapply Hlive. }
  destruct (FlushStale_no_faults (mkRedis cl' (window rc)) Hlive' Hnf) as [_ Hst].
  cbn [c] in Hst. rewrite Hst, map_lookup_filter.
  unfold cl'. cbn [store]. rewrite lookup_insert_eq. simpl.
  case_decide.
  - rewrite option_guard_True; [done|]. simpl.
    destruct (set_ttl _ _) eqn:E; [discriminate|].
    unfold set_ttl in E. destruct (Z.ltb_spec 0 (window rc)); [|lia].
    destruct (_ || _); discriminate.
  - rewrite option_guard_False; [done|]. simpl.
    rewrite set_ttl_nonpositive by lia. tauto.
Qed.

(** X: without faults, [Put] succeeds and [Get] then returns the payload
    put, byte for byte. *)
Theorem Put_Get_roundtrip_remote rc key v :
  no_faults rc.(c) ->
  (Put rc key v).2 = None /\ Get (Put rc key v).1 key = inl v.
Proof.
  intros Hnf. unfold Put, Get, set_cmd. rewrite Hnf. simpl.
  split; [done|]. unfold get_cmd. simpl. rewrite Hnf. by rewrite lookup_insert_eq.
Qed.

Lemma Put_Get_roundtrip_remote_witness :
  Get (Put Samples.redis_empty "k" [Byte.x07]).1 "k" = inl [Byte.x07].
Proof. apply (Put_Get_roundtrip_remote Samples.redis_empty "k" [Byte.x07]). intros cmd. reflexivity. Defined.

(** X: without faults, a key just put survives the next [FlushStale] with
    its payload when the window is positive (the [SET] carries an expiry)
    and is deleted by it when the window is zero or negative (other than
    [KeepTTL]), since the [SET] then carries no expiry. *)
Theorem Put_then_FlushStale rc key v :
  live rc.(c) -> no_faults rc.(c) -> rc.(window) ≠ KeepTTL ->
  (FlushStale (Put rc key v).1).1.(c).(store) !! key =
    if decide (0 < rc.(window))
    then Some (mkEntry v (set_ttl rc.(window) (rc.(c).(store) !! key)))
    else None.
Proof. apply Put_FlushStale_lookup. Qed.

Lemma Put_then_FlushStale_witness :
  (FlushStale (Put Samples.redis_empty "k" [Byte.x07]).1).1.(c).(store) !! "k" =
    Some (mkEntry [Byte.x07] (Some 1)).
Proof.
  rewrite (Put_then_FlushStale Samples.redis_empty "k" [Byte.x07]).
  - reflexivity.
  - intros k e ms Hk. discriminate.
  - intros cmd. reflexivity.
  - discriminate.
Defined.

(** X: a cache built by [New] without a [Window] option has window 0, so
    without faults every key it puts is stored without expiry and the next
    [FlushStale] deletes it. *)
Theorem New_default_window_puts_are_flushed address username password cl key v :
  live cl -> no_faults cl ->
  (FlushStale (Put (mkRedis cl (New address username password []).(cfg_window))
                 key v).1).1.(c).(store) !! key = None.
Proof.
  intros Hlive Hnf.
  rewrite (Put_FlushStale_lookup (mkRedis cl _)); [| done | done | simpl; discriminate].
  rewrite decide_False; [done|]. cbn. lia.
Qed.

Lemma New_default_window_puts_are_flushed_witness :
  (FlushStale (Put (mkRedis (Samples.redis_empty).(c)
                      (New "" "" "" []).(cfg_window)) "k" [Byte.x07]).1).1.(c).(store)
    !! "k" = None.
Proof.
  apply New_default_window_puts_are_flushed.
  - intros k e ms Hk. discriminate.
  - intros cmd. reflexivity.
Defined.

(** X: without faults, [Delete] succeeds whether or not the key exists,
    removes it (a later [Get] fails with [redis.Nil]) and touches no other
    key; deleting twice is deleting once. *)
Theorem Delete_idempotent rc key :
  no_faults rc.(c) ->
  (Delete rc key).2 = None /\
  (Delete rc key).1.(c).(store) = delete key rc.(c).(store) /\
  Get (Delete rc key).1 key = inr Nil /\
  Delete (Delete rc key).1 key = Delete rc key.
Proof.
  intros Hnf. unfold Delete, del_cmd. rewrite Hnf. cbn.
  split; [done|]. split; [done|]. split.
  - unfold Get, get_cmd. simpl. rewrite Hnf. by rewrite lookup_delete_eq.
  - rewrite Hnf. cbn. by rewrite delete_delete_eq.
Qed.

Lemma Delete_idempotent_witness :
  Delete (Delete Samples.redis_pq "p").1 "p" = Delete Samples.redis_pq "p".
Proof. apply (Delete_idempotent Samples.redis_pq "p"). intros cmd. reflexivity. Defined.

Lemma flush_loop_no_faults cl keys :
  no_faults cl ->
  (flush_loop cl keys).2 = None /\
  (flush_loop cl keys).1.(fault) = cl.(fault) /\
  forall k, (flush_loop cl keys).1.(store) !! k =
    if bool_decide (k ∈ keys) then None else cl.(store) !! k.
Proof.
  revert cl. induction keys as [|key ks IH]; intros cl Hnf; simpl; [done|].
  unfold del_cmd. rewrite Hnf.
  destruct (IH (mkClient (delete key (store cl)) (fault cl)) Hnf) as (H1 & H2 & H3).
  split; [done|]. split; [done|]. intros k. rewrite H3. cbn [store].
  destruct (decide (k = key)) as [->|Hne].
  - rewrite lookup_delete_eq. rewrite (bool_decide_true (key ∈ key :: ks)) by set_solver.
    by case_bool_decide.
  - rewrite lookup_delete_ne by congruence.
    replace (bool_decide (k ∈ key :: ks)) with (bool_decide (k ∈ ks)); [done|].
    apply bool_decide_ext. set_solver.
Qed.

Lemma flush_loop_subseteq cl keys : (flush_loop cl keys).1.(store) ⊆ cl.(store).
Proof.
  revert cl. induction keys as [|key ks IH]; intros cl; simpl; [done|].
  unfold del_cmd. destruct (fault cl (CDel key)); simpl; [done|].
  etrans; [apply IH|]. apply delete_subseteq.
Qed.

Lemma flush_stale_loop_subseteq cl keys :
  (flush_stale_loop cl keys).1.(store) ⊆ cl.(store).
Proof.
  revert cl. induction keys as [|key ks IH]; intros cl; simpl; [done|].
  destruct (ttl_cmd cl key); simpl; [|done].
  destruct (_ =? -1); [|apply IH].
  unfold del_cmd. destruct (fault cl (CDel key)); simpl; [done|].
  etrans; [apply IH|]. apply delete_subseteq.
Qed.

(** X: without faults, [Flush] succeeds and leaves the server empty, so a
    second [Flush] changes nothing. *)
Theorem Flush_empties_server rc :
  no_faults rc.(c) ->
  (Flush rc).2 = None /\ (Flush rc).1.(c).(store) = ∅ /\
  Flush (Flush rc).1 = Flush rc.
Proof.
  intros Hnf.
  assert (Hst : (Flush rc).2 = None /\ (Flush rc).1.(c).(store) = ∅ /\
                (Flush rc).1.(c).(fault) = rc.(c).(fault) /\
                (Flush rc).1.(window) = rc.(window)).
  { destruct (flush_loop_no_faults (c rc) (map fst (map_to_list (store (c rc)))) Hnf)
      as (H1 & H2 & H3).
    unfold Flush, scan_cmd. rewrite Hnf.
    destruct (flush_loop _ _) as [cl' err] eqn:Hl. simpl in *. subst err.
    split; [done|]. split; [|done].
    apply map_eq. intros k. rewrite H3, lookup_empty.
    case_bool_decide as Hin; [done|].
    destruct (store (c rc) !! k) as [e|] eqn:Hk; [|done].
    exfalso. apply Hin. apply list_elem_of_In, in_map_iff. exists (k, e).
    split; [done|]. apply list_elem_of_In. by apply elem_of_map_to_list. }
  destruct Hst as (H1 & H2 & H3 & H4). split; [done|]. split; [done|].
  destruct (Flush rc) as [[[st f] w] err] eqn:E. simpl in *. subst.
  unfold Flush at 1, scan_cmd. simpl. rewrite Hnf. cbn.
  rewrite map_to_list_empty. simpl. reflexivity.
Qed.

Lemma Flush_empties_server_witness : (Flush Samples.redis_pq).1.(c).(store) = ∅.
Proof. apply (Flush_empties_server Samples.redis_pq). intros cmd. reflexivity. Defined.

(** X: whatever commands fail, [Flush] and [FlushStale] only delete keys:
    every key left on the server holds the entry it held before. *)
Theorem Flush_FlushStale_only_delete rc :
  (Flush rc).1.(c).(store) ⊆ rc.(c).(store) /\
  (FlushStale rc).1.(c).(store) ⊆ rc.(c).(store).
Proof.
  unfold Flush, FlushStale, scan_cmd.
  destruct (fault (c rc) CScan); simpl; [done|].
  split.
  - pose proof (flush_loop_subseteq (c rc) (map fst (map_to_list (store (c rc))))).
    destruct (flush_loop _ _) as [cl' [e|]]; done.
  - pose proof (flush_stale_loop_subseteq (c rc) (map fst (map_to_list (store (c rc))))).
    destruct (flush_stale_loop _ _) as [cl' [e|]]; done.
Qed.

End RedisExtra.
